(** * The comm state reducer of nteract (packages/core/src/reducers/comms.js)

    The reducer keeps an [Immutable.Map] with three sub-maps, [targets],
    [info] and [models], and updates it with [setIn] on key paths.  The
    development has three layers:

    - plain JavaScript values, as they arrive in the actions ([js]);
    - the part of Immutable.js the reducer calls ([fromJS], [getIn],
      [setIn] on [Map] and [List]), in module [Immutable];
    - the reducer itself, function by function.

    Numbers are integers here (the keys of a path are strings or integers);
    NaN, fractions and [-0] are not represented. *)

From stdpp Require Import gmap strings list fin_maps pretty.
From Stdlib Require Import ZArith Lia Ascii.

#[local] Set Warnings "-register-all".
#[local] Open Scope Z_scope.

(** ** Results of running JavaScript code *)

(** What a call can throw.  Everything the code here throws is a
    [TypeError]: the engine's, for a property read on [null]/[undefined]
    or a call of something that is no function, and the one Immutable
    throws with the message "Invalid keyPath: ..." when [setIn] meets a
    value it cannot update. *)
Inductive exn := TypeError.

(** [OutOfModel] marks the inputs this embedding does not describe: an
    array or object used as a key (Immutable compares those by reference),
    a [List] grown past the 32-bit bounds of the library, an action whose
    [type] is one of the reducer's three but whose payload is missing.
    Nothing is claimed about them. *)
Inductive outcome (A : Type) :=
| Returns (a : A)
| Throws (e : exn)
| OutOfModel.
Arguments Returns {A} a.
Arguments Throws {A} e.
Arguments OutOfModel {A}.

#[global] Instance outcome_ret : MRet outcome := λ A a, Returns a.
#[global] Instance outcome_bind : MBind outcome := λ A B f m,
  match m with
  | Returns a => f a
  | Throws e => Throws e
  | OutOfModel => OutOfModel
  end.
#[global] Instance outcome_fmap : FMap outcome := λ A B f m,
  match m with
  | Returns a => Returns (f a)
  | Throws e => Throws e
  | OutOfModel => OutOfModel
  end.

(** ** Plain JavaScript values *)

(** The payload of an action: JSON-like data.  Objects are maps from
    property names to values. *)
Inductive js :=
| JUndefined
| JNull
| JBool (b : bool)
| JNum (n : Z)
| JStr (s : string)
| JArr (l : list js)
| JObj (o : gmap string js).

(** [data.name] for the two properties the reducer reads, [path] and
    [value]: reading a property of [null] or [undefined] throws, an object
    gives its own property or [undefined], and no other value has a
    property of either name. *)
Definition js_field (data : js) (name : string) : outcome js :=
  match data with
  | JUndefined | JNull => Throws TypeError
  | JObj o => Returns (default JUndefined (o !! name))
  | _ => Returns JUndefined
  end.

(** ** Immutable.js

    The library is a dependency of the package, not part of its sources.
    What the reducer calls is modelled after the library's code:
    [fromJS], [Map.get]/[set], [List.get]/[set] with [wrapIndex], [getIn],
    and [setIn] through [updateInDeepMap].  Collections are values here, so the library's
    shortcuts on identical references ([nextUpdated === nextExisting])
    do not show. *)
(** Truthiness of the own property [name] of an object ([undefined] when
    the object has no such property). *)
Definition property_truthy (o : gmap string js) (name : string) : bool :=
  match o !! name with
  | None | Some JUndefined | Some JNull => false
  | Some (JBool b) => b
  | Some (JNum n) => negb (n =? 0)
  | Some (JStr s) => negb (String.eqb s "")
  | Some (JArr _) | Some (JObj _) => true
  end.

Module Immutable.

(** Keys of a [Map] and of a key path: the primitive values, compared by
    value ([1] and ["1"] are different keys). *)
Inductive key :=
| KUndefined
| KNull
| KBool (b : bool)
| KNum (n : Z)
| KStr (s : string).

#[global] Instance key_eq_dec : EqDecision key.
Proof. solve_decision. Defined.

#[global] Instance key_countable : Countable key.
Proof.
  refine (inj_countable'
    (λ k, match k with
          | KUndefined => inl (inl false)
          | KNull => inl (inl true)
          | KBool b => inl (inr b)
          | KNum n => inr (inl n)
          | KStr s => inr (inr s)
          end)
    (λ x, match x with
          | inl (inl false) => KUndefined
          | inl (inl true) => KNull
          | inl (inr b) => KBool b
          | inr (inl n) => KNum n
          | inr (inr s) => KStr s
          end) _).
  by intros [].
Defined.

#[global] Instance KStr_inj : Inj (=) (=) KStr.
Proof. by intros s1 s2 [= ->]. Qed.

(** The values a store holds: primitives, opaque function references (the
    handlers of comm targets, told apart by an identifier only), the two
    collections [List] and [Map], and plain JavaScript objects that
    [fromJS] has left as they are ([IObject], with the properties of the
    object, themselves not converted). *)
Inductive imm :=
| IUndefined
| INull
| IBool (b : bool)
| INum (n : Z)
| IStr (s : string)
| IFunc (h : nat)
| IList (l : list imm)
| IMap (m : gmap key imm)
| IObject (o : gmap string js).

(** [isPlainObj(value)] on an object:
    [value.constructor === Object || value.constructor === undefined].
    Without an own property the constructor is the inherited [Object]; an
    own property of a payload is never that function, so the object is
    plain only if the property holds [undefined]. *)
Definition isPlainObj (o : gmap string js) : bool :=
  match o !! "constructor" with
  | None | Some JUndefined => true
  | Some _ => false
  end.

(** [Immutable.fromJS]: arrays become [List]s and plain objects [Map]s,
    deeply; anything else is returned as it is, an object that is not
    plain included. *)
Fixpoint fromJS (v : js) : imm :=
  match v with
  | JUndefined => IUndefined
  | JNull => INull
  | JBool b => IBool b
  | JNum n => INum n
  | JStr s => IStr s
  | JArr l => IList (fromJS <$> l)
  | JObj o => if isPlainObj o then IMap (kmap KStr (fromJS <$> o)) else IObject o
  end.

Definition emptyMap : imm := IMap ∅.

(** Truthiness of a value ([commInfo && ...]). *)
Definition truthy (v : imm) : bool :=
  match v with
  | IUndefined | INull => false
  | IBool b => b
  | INum n => negb (n =? 0)
  | IStr s => negb (String.eqb s "")
  | IFunc _ | IList _ | IMap _ | IObject _ => true
  end.

(** The value is one of the two collections, which have the methods
    [get], [set], [getIn] and [setIn]. *)
Definition is_collection (v : imm) : bool :=
  match v with
  | IList _ | IMap _ => true
  | _ => false
  end.

(** [existing && existing.set]: the collections have the method; a plain
    object passes the test when it has a truthy own property [set]. *)
Definition has_set (v : imm) : bool :=
  match v with
  | IList _ | IMap _ => true
  | IObject o => property_truthy o "set"
  | _ => false
  end.

(** [nested && nested.get], likewise. *)
Definition has_get (v : imm) : bool :=
  match v with
  | IList _ | IMap _ => true
  | IObject o => property_truthy o "get"
  | _ => false
  end.

(** Value of a string of decimal digits, [None] when another character
    occurs. *)
Fixpoint digits_value (s : string) (acc : N) : option N :=
  match s with
  | EmptyString => Some acc
  | String c rest =>
      let d := Ascii.N_of_ascii c in
      if ((48 <=? d) && (d <=? 57))%N
      then digits_value rest (10 * acc + (d - 48))%N
      else None
  end.

(** "Is array index" of ECMAScript, as [wrapIndex] tests it on a key that
    is not a number: the string must be the decimal writing of a 32-bit
    unsigned integer other than 2^32-1. *)
Definition array_index (s : string) : option N :=
  match digits_value s 0 with
  | Some n =>
      if String.eqb (pretty n) s && (n <? 4294967295)%N then Some n else None
  | None => None
  end.

(** [wrapIndex(list, index)]: [None] is NaN; a negative number counts from
    the end of the list. *)
Definition wrapIndex (size : Z) (index : key) : option Z :=
  match index with
  | KNum n => Some (if n <? 0 then size + n else n)
  | KStr s => Z.of_N <$> array_index s
  | _ => None
  end.

(** [list.get(index, NOT_SET)]; [None] stands for [NOT_SET]. *)
Definition list_get (l : list imm) (index : key) : option imm :=
  match wrapIndex (Z.of_nat (length l)) index with
  | Some i => if (0 <=? i) && (i <? Z.of_nat (length l)) then l !! Z.to_nat i else None
  | None => None
  end.

(** [list.set(index, value)]: NaN leaves the list as it is; an index past
    the end or before the start grows the list, the new slots holding
    [undefined]. *)
Definition list_set (l : list imm) (index : key) (value : imm) : outcome (list imm) :=
  let size := Z.of_nat (length l) in
  match wrapIndex size index with
  | None => Returns l
  | Some i =>
      if (0 <=? i) && (i <? size) then Returns (<[Z.to_nat i := value]> l)
      else if (size <=? i) && (i <? 2147483647)
      then Returns (l ++ replicate (Z.to_nat (i - size)) IUndefined ++ [value])
      else if (i <? 0) && (- 2147483648 <=? i) && (size - i <? 2147483648)
      then Returns (value :: replicate (Z.to_nat (- i - 1)) IUndefined ++ l)
      else OutOfModel
  end.

(** [collection.get(key, NOT_SET)] where the receiver has the method. *)
Definition coll_get (c : imm) (k : key) : option imm :=
  match c with
  | IMap m => m !! k
  | IList l => list_get l k
  | _ => None
  end.

(** [collection.set(key, value)]; a receiver without the method makes the
    call a [TypeError]. *)
Definition coll_set (c : imm) (k : key) (value : imm) : outcome imm :=
  match c with
  | IMap m => Returns (IMap (<[k := value]> m))
  | IList l => IList <$> list_set l k value
  | _ => Throws TypeError
  end.

(** [updateInDeepMap(existing, keyPath, NOT_SET, () => value)], the worker
    of [setIn].  [existing = None] is [NOT_SET]: below a missing key a
    fresh [Map] is made for every remaining key.  A value that is there
    and has no [set] is refused with the "Invalid keyPath" [TypeError];
    a plain object that passes the test has no method [get] to call. *)
Fixpoint updateInDeepMap (existing : option imm) (keyPath : list key)
    (value : imm) : outcome imm :=
  match keyPath with
  | [] => Returns value
  | k :: rest =>
      match existing with
      | None =>
          nextUpdated ← updateInDeepMap None rest value;
          coll_set emptyMap k nextUpdated
      | Some c =>
          if has_set c then
            if is_collection c then
              nextUpdated ← updateInDeepMap (coll_get c k) rest value;
              coll_set c k nextUpdated
            else Throws TypeError
          else Throws TypeError
      end
  end.

(** [collection.setIn(keyPath, value)]. *)
Definition setIn (c : imm) (keyPath : list key) (value : imm) : outcome imm :=
  if is_collection c then updateInDeepMap (Some c) keyPath value
  else Throws TypeError.


(** The loop of [getIn]: a value that is falsy or has no [get] ends the
    walk with [undefined], as [NOT_SET] does; a plain object with a truthy
    own [get] has nothing there that can be called. *)
Fixpoint getIn_from (nested : imm) (keyPath : list key) : outcome imm :=
  match keyPath with
  | [] => Returns nested
  | k :: rest =>
      if truthy nested && has_get nested then
        if is_collection nested then
          match coll_get nested k with
          | Some next => getIn_from next rest
          | None => Returns IUndefined
          end
        else Throws TypeError
      else Returns IUndefined
  end.

(** [collection.getIn(keyPath)], with [undefined] for what is not set. *)
Definition getIn (c : imm) (keyPath : list key) : outcome imm :=
  if is_collection c then getIn_from c keyPath else Throws TypeError.

(** [collection.get(key)] called as a method on any value. *)
Definition get (c : imm) (k : key) : outcome imm :=
  if is_collection c then Returns (default IUndefined (coll_get c k))
  else Throws TypeError.

(** [===] against a string literal. *)
Definition is_string (v : imm) (s : string) : bool :=
  match v with
  | IStr s' => String.eqb s' s
  | _ => false
  end.

End Immutable.
Import Immutable.

(** ** The reducer *)

(** The actions of the reducer (the Flow union [CommAction]), and
    [OtherAction] for any other action a store dispatches; its argument is
    the action's [type]. *)
Inductive CommAction :=
| RegisterCommTargetAction (name : string) (handler : nat)
| CommOpenAction (comm_id target_name target_module : string) (data : js)
| CommMessageAction (comm_id : string) (data : js)
| OtherAction (type : string).

Definition action_type (action : CommAction) : string :=
  match action with
  | RegisterCommTargetAction _ _ => "REGISTER_COMM_TARGET"
  | CommOpenAction _ _ _ _ => "COMM_OPEN"
  | CommMessageAction _ _ => "COMM_MESSAGE"
  | OtherAction type => type
  end.

Definition defaultCommState : imm :=
  IMap {[ KStr "targets" := emptyMap;
          KStr "models" := emptyMap;
          KStr "info" := emptyMap ]}.

Definition registerCommTarget (state : imm) (name : string) (handler : nat)
    : outcome imm :=
  setIn state [KStr "targets"; KStr name] (IFunc handler).

Definition processCommOpen (state : imm)
    (target_name target_module : string) (data : js) (comm_id : string)
    : outcome imm :=
  let commInfo :=
    JObj {[ "target_module" := JStr target_module;
            "target_name" := JStr target_name ]} in
  state' ← setIn state [KStr "info"; KStr comm_id] (fromJS commInfo);
  setIn state' [KStr "models"; KStr comm_id] (fromJS data).

(** An element of [data.path] as a key. *)
Definition key_of_js (v : js) : option key :=
  match v with
  | JUndefined => Some KUndefined
  | JNull => Some KNull
  | JBool b => Some (KBool b)
  | JNum n => Some (KNum n)
  | JStr s => Some (KStr s)
  | JArr _ | JObj _ => None
  end.

(** [prefix.concat(path)]: the elements of an array are appended, any
    other value is appended as one element. *)
Definition concat_path (prefix : list key) (path : js) : outcome (list key) :=
  let elements := match path with JArr l => l | _ => [path] end in
  match mapM key_of_js elements with
  | Some keys => Returns (prefix ++ keys)
  | None => OutOfModel
  end.

(** The test of lines 45-49:
    [commInfo && commInfo.get("target_module") === "reducers" &&
     commInfo.get("target_name") === "setIn"]. *)
Definition setIn_convention (commInfo : imm) : outcome bool :=
  if truthy commInfo then
    target_module ← get commInfo (KStr "target_module");
    if is_string target_module "reducers" then
      target_name ← get commInfo (KStr "target_name");
      Returns (is_string target_name "setIn")
    else Returns false
  else Returns false.

Definition processCommMessage (state : imm) (data : js) (comm_id : string)
    : outcome imm :=
  commInfo ← getIn state [KStr "info"; KStr comm_id];
  matches ← setIn_convention commInfo;
  if (matches : bool) then
    path ← js_field data "path";
    value ← fromJS <$> js_field data "value";
    keyPath ← concat_path [KStr "models"; KStr comm_id] path;
    setIn state keyPath value
  else
    setIn state [KStr "models"; KStr comm_id] (fromJS data).

Definition recognized (type : string) : bool :=
  String.eqb type "REGISTER_COMM_TARGET"
  || String.eqb type "COMM_OPEN"
  || String.eqb type "COMM_MESSAGE".

(** The default export.  An [undefined] state is replaced by
    [defaultCommState]. *)
Definition comms (state : imm) (action : CommAction) : outcome imm :=
  let state := match state with IUndefined => defaultCommState | _ => state end in
  match action with
  | RegisterCommTargetAction name handler =>
      registerCommTarget state name handler
  | CommOpenAction comm_id target_name target_module data =>
      processCommOpen state target_name target_module data comm_id
  | CommMessageAction comm_id data =>
      processCommMessage state data comm_id
  | OtherAction type =>
      if recognized type then OutOfModel else Returns state
  end.

(** ** Reading a state *)

(** The sub-map of a state under one of its three names. *)
Definition submap (name : string) (state : imm) : gmap key imm :=
  match state with
  | IMap m => match m !! KStr name with Some (IMap sub) => sub | _ => ∅ end
  | _ => ∅
  end.

Definition targets_of : imm → gmap key imm := submap "targets".
Definition info_of : imm → gmap key imm := submap "info".
Definition models_of : imm → gmap key imm := submap "models".
Arguments submap : simpl never.
Arguments targets_of : simpl never.
Arguments info_of : simpl never.
Arguments models_of : simpl never.

(** A comm state as the reducer keeps it: a [Map] whose [targets], [info]
    and [models] are [Map]s, every info entry being a [Map] itself. *)
Definition wf_state (state : imm) : Prop :=
  ∃ m targets info models,
    state = IMap m ∧
    m !! KStr "targets" = Some (IMap targets) ∧
    m !! KStr "info" = Some (IMap info) ∧
    m !! KStr "models" = Some (IMap models) ∧
    ∀ k v, info !! k = Some v → ∃ r, v = IMap r.

(** The states the reducer produces from the initial one. *)
Inductive reachable : imm → Prop :=
| reachable_init : reachable defaultCommState
| reachable_step state action state' :
    reachable state →
    comms state action = Returns state' →
    reachable state'.

(** The info record of the [reducers]/[setIn] convention is stored for
    [comm_id]. *)
Definition convention_matches (state : imm) (comm_id : string) : Prop :=
  ∃ r, info_of state !! KStr comm_id = Some (IMap r) ∧
       r !! KStr "target_module" = Some (IStr "reducers") ∧
       r !! KStr "target_name" = Some (IStr "setIn").

(** The info record [processCommOpen] stores. *)
Definition info_record (target_module target_name : string) : imm :=
  IMap {[ KStr "target_module" := IStr target_module;
          KStr "target_name" := IStr target_name ]}.








(** The payload of a message of the [setIn] convention,
    [{path: [...], value: ...}]. *)
Definition patch_fields (path : list js) (value : js) : gmap string js :=
  {[ "path" := JArr path; "value" := value ]}.

Definition patch (path : list js) (value : js) : js :=
  JObj (patch_fields path value).

(** The state with one of its sub-maps replaced. *)
Definition with_sub (name : string) (sub : gmap key imm) (state : imm) : imm :=
  match state with
  | IMap m => IMap (<[KStr name := IMap sub]> m)
  | _ => state
  end.

(** The reducer applied to a sequence of actions, in order; it stops at
    the first one that does not return. *)
Definition comms_run (state : imm) (actions : list CommAction) : outcome imm :=
  foldl (λ acc action, state ← acc; comms state action) (Returns state) actions.


(** ** States and payloads used as examples *)

(** A state that holds the info record of the [reducers]/[setIn]
    convention for the comm ["c"], and the given model for it, if any. *)
Definition setIn_state (model : option imm) : imm :=
  IMap {[ KStr "targets" := emptyMap;
          KStr "models" :=
            IMap (match model with
                  | Some v => {[ KStr "c" := v ]}
                  | None => ∅
                  end);
          KStr "info" := IMap {[ KStr "c" := info_record "reducers" "setIn" ]} ]}.

Definition nested_data : js :=
  JObj {[ "a" := JObj {[ "b" := JNum 1; "c" := JNum 2 ]} ]}.

Definition scalar_data : js := JObj {[ "a" := JNum 1 ]}.

Definition widget_scenario (handler : nat) (target_name : string)
    : list CommAction :=
  [ RegisterCommTargetAction "widget" handler;
    CommOpenAction "c1" target_name "reducers" (JObj {[ "count" := JNum 0 ]});
    CommMessageAction "c1" (patch [JStr "count"] (JNum 5)) ].


(** ** Deep copies *)






(** ** A message seen from its own comm *)

(** The keys that [prefix.concat(path)] takes from [path]. *)
Definition path_keys (path : js) : option (list key) :=
  mapM key_of_js (match path with JArr l => l | _ => [path] end).


(** What [processCommMessage] computes for the entry [models[comm_id]],
    from the two entries it reads: the info record and the model of the
    comm (either may be missing). *)
Definition message_entry (commInfo model : option imm) (data : js) : outcome imm :=
  matches ← setIn_convention (default IUndefined commInfo);
  if (matches : bool) then
    path ← js_field data "path";
    value ← fromJS <$> js_field data "value";
    match path_keys path with
    | Some keys => updateInDeepMap model keys value
    | None => OutOfModel
    end
  else Returns (fromJS data).

(** The entry an action writes: a name of the registry, or a comm. *)
Inductive address :=
| TargetName (name : string)
| Comm (comm_id : string).

Definition addressed (action : CommAction) : option address :=
  match action with
  | RegisterCommTargetAction name _ => Some (TargetName name)
  | CommOpenAction comm_id _ _ _ => Some (Comm comm_id)
  | CommMessageAction comm_id _ => Some (Comm comm_id)
  | OtherAction _ => None
  end.

(** Two actions write different entries. *)
Definition independent (a1 a2 : CommAction) : Prop :=
  match addressed a1, addressed a2 with
  | Some x1, Some x2 => x1 ≠ x2
  | _, _ => False
  end.

(** A state put together from its three sub-maps and the other entries
    it may hold. *)
Definition build (m targets info models : gmap key imm) : imm :=
  IMap (<[KStr "targets" := IMap targets]>
       (<[KStr "info" := IMap info]>
       (<[KStr "models" := IMap models]> m))).


Arguments build : simpl never.


(** ** The editor chooser (stateful-components/src/inputs/editor.tsx) *)

Module Editor.

(** Truthiness of a plain value. *)
Definition js_truthy (v : js) : bool :=
  match v with
  | JUndefined | JNull => false
  | JBool b => b
  | JNum n => negb (n =? 0)
  | JStr s => negb (String.eqb s "")
  | JArr _ | JObj _ => true
  end.

(** [v === s] for a string [s]. *)
Definition js_is_string (v : js) (s : string) : bool :=
  match v with
  | JStr s' => String.eqb s' s
  | _ => false
  end.

(** A React element: the component it was made from, told apart by an
    identifier only, and its props. *)
Record element := Element { component : nat; props : gmap string js }.

(** The children as [React.Children.forEach] hands them to its callback:
    [null] (also for [undefined] and booleans), strings, numbers, portals
    (objects without [props]) and elements. *)
Inductive child :=
| ChildNull
| ChildText (s : string)
| ChildNumber (n : Z)
| ChildPortal
| ChildElement (e : element).

(** [!child] *)
Definition child_falsy (c : child) : bool :=
  match c with
  | ChildNull => true
  | ChildText s => String.eqb s ""
  | ChildNumber n => n =? 0
  | ChildPortal | ChildElement _ => false
  end.

(** One call of the callback of [forEach] in [render], on the variable
    [chosenOne]. *)
Definition visit (editorType : string) (chosenOne : option element) (c : child)
    : option element :=
  if child_falsy c then chosenOne else
  match c with
  | ChildText _ | ChildNumber _ => chosenOne
  | _ =>
      match chosenOne with
      | Some _ => chosenOne
      | None =>
          match c with
          | ChildElement childElement =>
              let child_editor_type :=
                default JUndefined (props childElement !! "editorType") in
              if js_truthy child_editor_type then
                if js_is_string child_editor_type editorType
                then Some childElement else None
              else chosenOne
          | _ => chosenOne
          end
      end
  end.

(** What [render] returns: [null], or the call
    [React.cloneElement(chosenOne, config)].  The config is
    [{...this.props, className}]: the props of the editor other than
    [children], and its [children], which travel with them. *)
Inductive rendered :=
| RenderNull
| CloneElement (chosenOne : element) (config : gmap string js)
    (config_children : list child).

(** [Editor.render], from [this.props]: [editorType], the other props,
    and [children]. *)
Definition render (editorType : string) (this_props : gmap string js)
    (children : list child) : rendered :=
  match foldl (visit editorType) None children with
  | None => RenderNull
  | Some chosenOne =>
      CloneElement chosenOne
        (<["className" := JStr "nteract-cell-editor"]> this_props)
        children
  end.

(** The child is an element whose [editorType] prop is the wanted one
    (and is truthy, so it is not the empty string). *)
Definition wanted (editorType : string) (e : element) : bool :=
  js_is_string (default JUndefined (props e !! "editorType")) editorType
  && negb (String.eqb editorType "").

Definition candidate (editorType : string) (c : child) : option element :=
  match c with
  | ChildElement e => if wanted editorType e then Some e else None
  | _ => None
  end.

(** Example children: a text node, an editor of another type, and two
    editors of the type "codemirror". *)
Definition monaco_editor : element :=
  Element 1 {[ "editorType" := JStr "monaco" ]}.
Definition codemirror_editor (n : nat) : element :=
  Element n {[ "editorType" := JStr "codemirror" ]}.
Definition example_children : list child :=
  [ ChildText "x"; ChildElement monaco_editor;
    ChildElement (codemirror_editor 2); ChildElement (codemirror_editor 3) ].

End Editor.

(** ** The error handler of the gist publisher
    (applications/desktop/src/notebook/global-events.js, lines 210-255) *)

Module Gist.

(** The strings here are byte strings, as [getAllResponseHeaders]
    returns them. *)
Definition CRLF : string := String "013"%char (String "010"%char "").

(** [sep] is at the start of [s]. *)
Fixpoint starts_with (sep s : string) : bool :=
  match sep, s with
  | "", _ => true
  | String a sep', String b s' => Ascii.eqb a b && starts_with sep' s'
  | String _ _, "" => false
  end.

(** [s.includes(sub)] *)
Fixpoint includes (s sub : string) : bool :=
  starts_with sub s ||
  match s with
  | "" => false
  | String _ rest => includes rest sub
  end.

(** [s.split(sep)] for a separator that is not empty: the string is cut
    at each occurrence of [sep], found from left to right.  [skip] counts
    the characters of an occurrence still to pass, [piece] is the piece
    being read. *)
Fixpoint split_go (sep : string) (skip : nat) (piece s : string) : list string :=
  match s with
  | "" => [piece]
  | String c rest =>
      match skip with
      | S n => split_go sep n piece rest
      | O =>
          if starts_with sep s
          then piece :: split_go sep (String.length sep - 1) "" rest
          else split_go sep 0 (piece +:+ String c "") rest
      end
  end.

Definition split (s sep : string) : list string := split_go sep 0 "" s.

(** [acc[key] = value] on a plain object whose values are strings or
    [undefined] ([None]).  A missing [key] is the name "undefined"; the
    name "__proto__" goes to the setter of [Object.prototype], which
    ignores a value that is no object. *)
Definition assign (acc : gmap string (option string))
    (key value : option string) : gmap string (option string) :=
  let name := default "undefined" key in
  if String.eqb name "__proto__" then acc else <[name := value]> acc.

(** Lines 212-220: the response headers as an object. *)
Definition parse_headers (raw : string) : gmap string (option string) :=
  foldl (λ acc current,
           let parts := split current ": " in
           assign acc (parts !! 0%nat) (parts !! 1%nat))
        ∅ (split raw CRLF).

(** [headers.hasOwnProperty(name)]: an own property named
    "hasOwnProperty" hides the method, and calling a string or
    [undefined] throws. *)
Definition hasOwnProperty (headers : gmap string (option string))
    (name : string) : outcome bool :=
  if bool_decide (is_Some (headers !! "hasOwnProperty"))
  then Throws TypeError
  else Returns (bool_decide (is_Some (headers !! name))).

(** [headers[name].includes(sub)] *)
Definition header_includes (headers : gmap string (option string))
    (name sub : string) : outcome bool :=
  match headers !! name with
  | Some (Some value) => Returns (includes value sub)
  | _ => Throws TypeError
  end.

Record notification := Notification {
  title : string;
  message : string;
  dismissible : bool;
  position : string;
  level : string
}.

(** The argument of [actions.coreError]: a new [Error] with a message, or
    the error the request failed with. *)
Inductive error :=
| NewError (message : string)
| RequestError.

Inductive epic_action :=
| CoreError (e : error).

Definition bad_token : notification :=
  Notification "Bad GitHub Token"
    "The gist API reports that the token doesn't have gist scopes 🤷‍♀️"
    true "tr" "error".

Definition publishing_failed : notification :=
  Notification "Gist publishing failed"
    "😩 GitHub API not feelin' good today"
    true "tr" "error".

(** The callback of [catchError], from the header block and the status of
    the failed request: the notifications it adds and the actions it
    emits. *)
Definition on_error (raw_headers : string) (status : Z)
    : outcome (list notification * list epic_action) :=
  let headers := parse_headers raw_headers in
  has_scopes ← hasOwnProperty headers "X-OAuth-Scopes";
  no_gist ← (if (has_scopes : bool)
             then negb <$> header_includes headers "X-OAuth-Scopes" "gist"
             else Returns false);
  if (no_gist : bool) then
    Returns ([bad_token],
             [CoreError (NewError "Current token doesn't allow for gists")])
  else
    Returns (if 500 <? status then [publishing_failed] else [],
             [CoreError RequestError]).

(** A block of header lines, [name: value] each followed by CRLF. *)
Definition header_line (kv : string * string) : string :=
  kv.1 +:+ ": " +:+ kv.2.

Fixpoint header_block (pairs : list (string * string)) : string :=
  match pairs with
  | [] => ""
  | kv :: rest => header_line kv +:+ CRLF +:+ header_block rest
  end.

(** A header whose line splits back into its name and value, and that is
    stored under its name. *)
Definition plain_header (kv : string * string) : Prop :=
  includes (header_line kv) CRLF = false ∧
  includes kv.1 ": " = false ∧
  includes kv.2 ": " = false ∧
  kv.1 ≠ "__proto__".

(** The object that holds the last value given for each name. *)
Definition last_values (pairs : list (string * string))
    : gmap string (option string) :=
  foldl (λ acc kv, <[kv.1 := Some kv.2]> acc) ∅ pairs.

Definition example_headers : list (string * string) :=
  [ ("Content-Type", "application/json");
    ("X-OAuth-Scopes", "repo, user") ].

End Gist.

(** * Properties *)

(** ** The library model *)

Section immutable_facts.
Implicit Types (m sub : gmap key imm) (k : key) (ks q : list key) (v : imm).

Lemma is_string_spec v s : is_string v s = true ↔ v = IStr s.
Proof.
  destruct v; simpl; try (split; [discriminate | congruence]).
  rewrite String.eqb_eq. split; congruence.
Qed.

Lemma default_is_string (o : option imm) s :
  default IUndefined o = IStr s → o = Some (IStr s).
Proof. destruct o; simpl; congruence. Qed.

(** A write below one of the sub-maps of a state: the sub-map is
    rewritten at one key and put back under its name. *)
Lemma setIn_field m name sub k ks v :
  m !! KStr name = Some (IMap sub) →
  setIn (IMap m) (KStr name :: k :: ks) v =
    x ← updateInDeepMap (sub !! k) ks v;
    Returns (IMap (<[KStr name := IMap (<[k := x]> sub)]> m)).
Proof.
  intros Hsub. unfold setIn. simpl. rewrite Hsub. simpl.
  by destruct (updateInDeepMap (sub !! k) ks v).
Qed.

Lemma setIn_entry m name sub k v :
  m !! KStr name = Some (IMap sub) →
  setIn (IMap m) [KStr name; k] v =
    Returns (IMap (<[KStr name := IMap (<[k := v]> sub)]> m)).
Proof. intros Hsub. by rewrite (setIn_field _ _ _ _ _ _ Hsub). Qed.








(** [setIn] on a [List], on small cases: a string that is an array index
    addresses the slot of that number, a negative number counts from the
    end, an index past the end pads with [undefined], and a key that is no
    index leaves the list as it is. *)
Example setIn_list_index :
  setIn (IList [INum 1; INum 2]) [KStr "1"] (INum 9)
    = Returns (IList [INum 1; INum 9]).
Proof. reflexivity. Qed.

Example setIn_list_from_end :
  setIn (IList [INum 1; INum 2]) [KNum (-1)] (INum 9)
    = Returns (IList [INum 1; INum 9]).
Proof. reflexivity. Qed.

Example setIn_list_past_end :
  setIn (IList [INum 1]) [KNum 2] (INum 9)
    = Returns (IList [INum 1; IUndefined; INum 9]).
Proof. reflexivity. Qed.

Example setIn_list_no_index :
  setIn (IList [INum 1; INum 2]) [KStr "01"] (INum 9)
    = Returns (IList [INum 1; INum 2]).
Proof. reflexivity. Qed.
End immutable_facts.

(** ** Well-formed states *)

Section state_facts.
Implicit Types (m sub : gmap key imm) (state : imm).

Lemma submap_insert_eq name m sub :
  submap name (IMap (<[KStr name := IMap sub]> m)) = sub.
Proof. unfold submap. by rewrite lookup_insert_eq. Qed.

Lemma submap_insert_ne name name' m x :
  name ≠ name' →
  submap name (IMap (<[KStr name' := x]> m)) = submap name (IMap m).
Proof.
  intros Hne. unfold submap. rewrite lookup_insert_ne; [done|congruence].
Qed.

Lemma wf_state_default : wf_state defaultCommState.
Proof.
  exists {[ KStr "targets" := emptyMap; KStr "models" := emptyMap;
            KStr "info" := emptyMap ]}, ∅, ∅, ∅.
  by split_and!.
Qed.

Lemma wf_state_not_undefined state action :
  wf_state state →
  comms state action =
    match action with
    | RegisterCommTargetAction name handler =>
        registerCommTarget state name handler
    | CommOpenAction comm_id target_name target_module data =>
        processCommOpen state target_name target_module data comm_id
    | CommMessageAction comm_id data =>
        processCommMessage state data comm_id
    | OtherAction type =>
        if recognized type then OutOfModel else Returns state
    end.
Proof. by intros (m & ? & ? & ? & -> & _). Qed.

Lemma wf_state_inv state :
  wf_state state →
  ∃ m, state = IMap m ∧
       m !! KStr "targets" = Some (IMap (targets_of state)) ∧
       m !! KStr "info" = Some (IMap (info_of state)) ∧
       m !! KStr "models" = Some (IMap (models_of state)) ∧
       ∀ k v, info_of state !! k = Some v → ∃ r, v = IMap r.
Proof.
  intros (m & t & i & mo & -> & Ht & Hi & Hm & Hrec). exists m.
  unfold targets_of, info_of, models_of, submap. rewrite Ht, Hi, Hm.
  by split_and!.
Qed.

Lemma submap_with_sub_eq name sub state :
  wf_state state → submap name (with_sub name sub state) = sub.
Proof. intros (m & ? & ? & ? & -> & _). apply submap_insert_eq. Qed.

Lemma submap_with_sub_ne name name' sub state :
  name ≠ name' → submap name (with_sub name' sub state) = submap name state.
Proof.
  intros Hne. destruct state; try done. by apply submap_insert_ne.
Qed.

Lemma wf_state_with_sub name sub state :
  wf_state state →
  (name = "info" → ∀ k v, sub !! k = Some v → ∃ r, v = IMap r) →
  wf_state (with_sub name sub state).
Proof.
  intros (m & t & i & mo & -> & Ht & Hi & Hm & Hrec) Hsub. simpl.
  destruct (decide (name = "targets")) as [->|Hnt].
  { exists (<[KStr "targets" := IMap sub]> m), sub, i, mo.
    rewrite lookup_insert_eq, !lookup_insert_ne by done. by split_and!. }
  destruct (decide (name = "info")) as [->|Hni].
  { exists (<[KStr "info" := IMap sub]> m), t, sub, mo.
    rewrite lookup_insert_eq, !lookup_insert_ne by done.
    split_and!; [done..|]. intros k v Hk. by eapply (Hsub eq_refl). }
  destruct (decide (name = "models")) as [->|Hnm].
  { exists (<[KStr "models" := IMap sub]> m), t, i, sub.
    rewrite lookup_insert_eq, !lookup_insert_ne by done. by split_and!. }
  exists (<[KStr name := IMap sub]> m), t, i, mo.
  rewrite !lookup_insert_ne by congruence. by split_and!.
Qed.

Lemma fromJS_commInfo target_module target_name :
  fromJS (JObj {[ "target_module" := JStr target_module;
                  "target_name" := JStr target_name ]})
  = info_record target_module target_name.
Proof.
  unfold info_record. simpl. f_equal.
Qed.

(** The three transitions on a well-formed state, in closed form. *)
Lemma registerCommTarget_wf state name handler :
  wf_state state →
  registerCommTarget state name handler =
    Returns (with_sub "targets"
               (<[KStr name := IFunc handler]> (targets_of state)) state).
Proof.
  intros (m & -> & Ht & _)%wf_state_inv. unfold registerCommTarget.
  by rewrite (setIn_entry _ _ _ _ _ Ht).
Qed.

Lemma processCommOpen_wf state target_name target_module data comm_id :
  wf_state state →
  processCommOpen state target_name target_module data comm_id =
    Returns
      (with_sub "models" (<[KStr comm_id := fromJS data]> (models_of state))
         (with_sub "info"
            (<[KStr comm_id := info_record target_module target_name]>
               (info_of state)) state)).
Proof.
  intros (m & -> & _ & Hi & Hm & _)%wf_state_inv. unfold processCommOpen.
  rewrite fromJS_commInfo, (setIn_entry _ _ _ _ _ Hi). simpl.
  unfold mbind, outcome_bind.
  rewrite (setIn_entry _ "models" (models_of (IMap m))); [done|].
  by rewrite lookup_insert_ne.
Qed.

Lemma getIn_info state comm_id :
  wf_state state →
  getIn state [KStr "info"; KStr comm_id] =
    Returns (default IUndefined (info_of state !! KStr comm_id)).
Proof.
  intros (m & -> & _ & Hi & _)%wf_state_inv. unfold getIn. simpl.
  rewrite Hi. simpl. by destruct (info_of (IMap m) !! KStr comm_id).
Qed.

(** The test of the convention on what a well-formed state holds for a
    comm: it returns, and says whether the stored record is the one of
    [reducers]/[setIn]. *)
Lemma setIn_convention_wf state comm_id :
  wf_state state →
  ∃ b : bool,
    setIn_convention (default IUndefined (info_of state !! KStr comm_id))
      = Returns b ∧
    (b = true ↔ convention_matches state comm_id).
Proof.
  intros (m & -> & _ & _ & _ & Hrec)%wf_state_inv.
  unfold convention_matches.
  destruct (info_of (IMap m) !! KStr comm_id) as [v|] eqn:Hv; simpl.
  - destruct (Hrec _ _ Hv) as [r ->]. unfold setIn_convention. simpl.
    destruct (is_string (default IUndefined (r !! KStr "target_module"))
                "reducers") eqn:Hmod; simpl.
    + exists (is_string (default IUndefined (r !! KStr "target_name")) "setIn").
      split; [done|]. rewrite is_string_spec in Hmod |- *.
      split.
      * intros Hname. exists r. split; [done|].
        split; by apply default_is_string.
      * intros (r' & [= <-] & _ & ->). done.
    + exists false. split; [done|]. split; [done|].
      intros (r' & [= <-] & Hm' & _). rewrite Hm' in Hmod. simpl in Hmod.
      done.
  - exists false. split; [done|]. split; [done|]. by intros (r & ? & _).
Qed.

Lemma processCommMessage_replaces state data comm_id :
  wf_state state →
  ¬ convention_matches state comm_id →
  processCommMessage state data comm_id =
    Returns (with_sub "models"
               (<[KStr comm_id := fromJS data]> (models_of state)) state).
Proof.
  intros Hwf Hno. unfold processCommMessage. rewrite (getIn_info _ _ Hwf).
  destruct (setIn_convention_wf state comm_id Hwf) as (b & Hb & Hiff).
  simpl. unfold mbind at 1, outcome_bind at 1. rewrite Hb.
  unfold mbind at 1, outcome_bind at 1.
  destruct b; [by destruct Hno; apply Hiff|].
  destruct (wf_state_inv _ Hwf) as (m & -> & _ & _ & Hm & _).
  by rewrite (setIn_entry _ _ _ _ _ Hm).
Qed.

Lemma processCommMessage_patches state data comm_id :
  wf_state state →
  convention_matches state comm_id →
  processCommMessage state data comm_id =
    path ← js_field data "path";
    value ← fromJS <$> js_field data "value";
    keyPath ← concat_path [KStr "models"; KStr comm_id] path;
    setIn state keyPath value.
Proof.
  intros Hwf Hyes. unfold processCommMessage. rewrite (getIn_info _ _ Hwf).
  destruct (setIn_convention_wf state comm_id Hwf) as (b & Hb & Hiff).
  simpl. unfold mbind at 1, outcome_bind at 1. rewrite Hb.
  unfold mbind at 1, outcome_bind at 1.
  destruct b; [done|]. apply Hiff in Hyes. done.
Qed.


Lemma processCommMessage_returns state data comm_id state' :
  wf_state state →
  processCommMessage state data comm_id = Returns state' →
  ∃ x, state' = with_sub "models" (<[KStr comm_id := x]> (models_of state)) state.
Proof.
  intros Hwf. destruct (setIn_convention_wf state comm_id Hwf) as (b & _ & Hiff).
  destruct b.
  - rewrite (processCommMessage_patches _ _ _ Hwf); [|by apply Hiff].
    destruct (js_field data "path") as [path| |]; simpl; [|done..].
    destruct (js_field data "value") as [value| |]; simpl; [|done..].
    unfold concat_path.
    destruct (mapM key_of_js _) as [keys|]; simpl; [|done].
    destruct (wf_state_inv _ Hwf) as (m & -> & _ & _ & Hm & _).
    rewrite (setIn_field _ _ _ _ _ _ Hm).
    destruct (updateInDeepMap _ keys _) as [x| |]; simpl; [|done..].
    intros [= <-]. by exists x.
  - rewrite (processCommMessage_replaces _ _ _ Hwf).
    + intros [= <-]. by eexists.
    + intros Hyes. by apply Hiff in Hyes.
Qed.

(** What a transition that returns does to the three sub-maps of a
    well-formed state. *)
Lemma comms_returns state action state' :
  wf_state state →
  comms state action = Returns state' →
  wf_state state' ∧
  match action with
  | RegisterCommTargetAction name handler =>
      targets_of state' = <[KStr name := IFunc handler]> (targets_of state) ∧
      info_of state' = info_of state ∧
      models_of state' = models_of state
  | CommOpenAction comm_id target_name target_module data =>
      targets_of state' = targets_of state ∧
      info_of state' =
        <[KStr comm_id := info_record target_module target_name]> (info_of state) ∧
      models_of state' = <[KStr comm_id := fromJS data]> (models_of state)
  | CommMessageAction comm_id data =>
      targets_of state' = targets_of state ∧
      info_of state' = info_of state ∧
      ∃ x, models_of state' = <[KStr comm_id := x]> (models_of state)
  | OtherAction _ => state' = state
  end.
Proof.
  intros Hwf. rewrite (wf_state_not_undefined _ _ Hwf).
  destruct (wf_state_inv _ Hwf) as (m & Hm & _ & _ & _ & Hrec).
  destruct action as [name handler|comm_id tn tm data|comm_id data|type].
  - rewrite (registerCommTarget_wf _ _ _ Hwf). intros [= <-].
    split; [by apply wf_state_with_sub|].
    unfold targets_of, info_of, models_of.
    rewrite submap_with_sub_eq, !submap_with_sub_ne by (done || by subst).
    done.
  - rewrite (processCommOpen_wf _ _ _ _ _ Hwf). intros [= <-].
    assert (wf_state (with_sub "info"
      (<[KStr comm_id := info_record tm tn]> (info_of state)) state)) as Hwf'.
    { apply wf_state_with_sub; [done|]. intros _ k v.
      rewrite lookup_insert. case_decide; [|by apply Hrec].
      intros [= <-]. by eexists. }
    split; [by apply wf_state_with_sub|].
    unfold targets_of, info_of, models_of.
    rewrite submap_with_sub_eq, !submap_with_sub_ne by (done || by subst).
    rewrite submap_with_sub_eq, ?submap_with_sub_ne by (done || by subst).
    done.
  - intros [x ->]%processCommMessage_returns; [|done].
    split; [by apply wf_state_with_sub|].
    unfold targets_of, info_of, models_of.
    rewrite submap_with_sub_eq, !submap_with_sub_ne by (done || by subst).
    eauto.
  - destruct (recognized type); [done|]. by intros [= <-].
Qed.

(** No transition takes a key out of one of the three sub-maps. *)
Lemma comms_keeps_keys state action state' :
  wf_state state →
  comms state action = Returns state' →
  dom (targets_of state) ⊆ dom (targets_of state') ∧
  dom (info_of state) ⊆ dom (info_of state') ∧
  dom (models_of state) ⊆ dom (models_of state').
Proof.
  intros Hwf Hstep.
  destruct (comms_returns _ _ _ Hwf Hstep) as [_ Hshape].
  destruct action.
  - destruct Hshape as (-> & -> & ->).
    split_and!; [apply dom_insert_subseteq|done..].
  - destruct Hshape as (-> & -> & ->).
    split_and!; [done|apply dom_insert_subseteq..].
  - destruct Hshape as (-> & -> & x & ->).
    split_and!; [done..|apply dom_insert_subseteq].
  - by subst.
Qed.

Lemma reachable_wf state : reachable state → wf_state state.
Proof.
  induction 1 as [|state action state' _ IH Hstep].
  - apply wf_state_default.
  - by destruct (comms_returns _ _ _ IH Hstep).
Qed.
End state_facts.

(** ** The transitions *)

Lemma registerCommTarget_returns state name handler :
  wf_state state →
  ∃ state', comms state (RegisterCommTargetAction name handler) = Returns state'.
Proof.
  intros Hwf. rewrite (wf_state_not_undefined _ _ Hwf).
  rewrite (registerCommTarget_wf _ _ _ Hwf). by eexists.
Qed.

Lemma processCommOpen_returns state comm_id target_name target_module data :
  wf_state state →
  ∃ state',
    comms state (CommOpenAction comm_id target_name target_module data)
      = Returns state'.
Proof.
  intros Hwf. rewrite (wf_state_not_undefined _ _ Hwf).
  rewrite (processCommOpen_wf _ _ _ _ _ Hwf). by eexists.
Qed.

Lemma setIn_state_wf model : wf_state (setIn_state model).
Proof.
  eexists _, ∅, {[ KStr "c" := info_record "reducers" "setIn" ]}, _.
  split_and!; [done..|].
  intros k v [<- <-]%lookup_singleton_Some. by eexists.
Qed.


Lemma setIn_state_model model :
  models_of (setIn_state model) !! KStr "c" = model.
Proof. by destruct model. Qed.









(** C6: an action whose type is none of REGISTER_COMM_TARGET, COMM_OPEN and
    COMM_MESSAGE makes the reducer return the state it was given, and
    nothing is thrown. *)
Theorem unknown_action_is_identity state action :
  state ≠ IUndefined →
  recognized (action_type action) = false →
  comms state action = Returns state.
Proof.
  intros Hstate Htype.
  destruct action as [| | |type]; simpl in Htype; try discriminate.
  unfold comms. rewrite Htype. by destruct state.
Qed.

Lemma unknown_action_is_identity_witness :
  comms defaultCommState (OtherAction "SET_NOTEBOOK") = Returns defaultCommState.
Proof.
  apply (unknown_action_is_identity defaultCommState (OtherAction "SET_NOTEBOOK")).
  - discriminate.
  - reflexivity.
Defined.

(** C7: registering a target name twice leaves the second handler under
    the name, exactly as if the first registration had not happened; and no
    transition removes a name from the registry. *)
Theorem register_last_wins state t h1 h2 :
  wf_state state →
  (∃ state1 state2,
     comms state (RegisterCommTargetAction t h1) = Returns state1 ∧
     comms state1 (RegisterCommTargetAction t h2) = Returns state2 ∧
     targets_of state2 !! KStr t = Some (IFunc h2) ∧
     comms state (RegisterCommTargetAction t h2) = Returns state2) ∧
  (∀ action state',
     comms state action = Returns state' →
     dom (targets_of state) ⊆ dom (targets_of state')).
Proof.
  intros Hwf. split.
  - destruct (registerCommTarget_returns state t h1 Hwf) as [state1 Hstep1].
    destruct (comms_returns _ _ _ Hwf Hstep1) as (Hwf1 & Ht1 & _).
    destruct (registerCommTarget_returns state1 t h2 Hwf1) as [state2 Hstep2].
    destruct (comms_returns _ _ _ Hwf1 Hstep2) as (_ & Ht2 & _).
    exists state1, state2. split_and!; [done..| |].
    + by rewrite Ht2, lookup_insert_eq.
    + rewrite <- Hstep2.
      rewrite (wf_state_not_undefined _ _ Hwf), (wf_state_not_undefined _ _ Hwf1).
      rewrite (registerCommTarget_wf _ _ _ Hwf), (registerCommTarget_wf _ _ _ Hwf1).
      rewrite (wf_state_not_undefined _ _ Hwf) in Hstep1.
      rewrite (registerCommTarget_wf _ _ _ Hwf) in Hstep1.
      injection Hstep1 as <-.
      unfold targets_of at 2. rewrite submap_with_sub_eq by done.
      rewrite insert_insert_eq.
      destruct (wf_state_inv _ Hwf) as (m & -> & _). simpl.
      by rewrite insert_insert_eq.
  - intros action state' Hstep.
    by destruct (comms_keeps_keys _ _ _ Hwf Hstep) as (? & _).
Qed.

Lemma register_last_wins_witness :
  wf_state defaultCommState ∧
  (∃ state1 state2,
     comms defaultCommState (RegisterCommTargetAction "t" 1) = Returns state1 ∧
     comms state1 (RegisterCommTargetAction "t" 2) = Returns state2 ∧
     targets_of state2 !! KStr "t" = Some (IFunc 2) ∧
     comms defaultCommState (RegisterCommTargetAction "t" 2) = Returns state2) ∧
  (∀ action state',
     comms defaultCommState action = Returns state' →
     dom (targets_of defaultCommState) ⊆ dom (targets_of state')).
Proof.
  split; [apply wf_state_default|].
  apply (register_last_wins defaultCommState "t" 1%nat 2%nat).
  apply wf_state_default.
Defined.



(** C5: in every state reached from the initial one, each key of [info]
    is a key of [models]; and no transition takes a key out of either
    map. *)
Theorem info_keys_have_models state :
  reachable state →
  dom (info_of state) ⊆ dom (models_of state) ∧
  ∀ action state',
    comms state action = Returns state' →
    dom (info_of state) ⊆ dom (info_of state') ∧
    dom (models_of state) ⊆ dom (models_of state').
Proof.
  intros Hreach. split.
  - induction Hreach as [|state action state' Hreach IH Hstep].
    + by change (info_of defaultCommState) with (∅ : gmap key imm).
    + destruct (comms_returns _ _ _ (reachable_wf _ Hreach) Hstep) as [_ Hshape].
      destruct action.
      * by destruct Hshape as (_ & -> & ->).
      * destruct Hshape as (_ & -> & ->). rewrite !dom_insert_L.
        by apply union_mono_l.
      * destruct Hshape as (_ & -> & x & ->). rewrite dom_insert_L.
        by apply union_subseteq_r'.
      * by subst.
  - intros action state' Hstep.
    by destruct (comms_keeps_keys _ _ _ (reachable_wf _ Hreach) Hstep) as (_ & ? & ?).
Qed.

Lemma info_keys_have_models_witness :
  reachable (setIn_state (Some (fromJS nested_data))) ∧
  dom (info_of (setIn_state (Some (fromJS nested_data))))
    ⊆ dom (models_of (setIn_state (Some (fromJS nested_data)))).
Proof.
  assert (reachable (setIn_state (Some (fromJS nested_data)))) as Hreach.
  { apply (reachable_step defaultCommState
             (CommOpenAction "c" "setIn" "reducers" nested_data));
      [apply reachable_init | vm_compute; reflexivity]. }
  split; [exact Hreach|].
  exact (proj1 (info_keys_have_models _ Hreach)).
Defined.

(** ** Messages *)




















(** The scenario with the comm opened against the target name "widget":
    the model after the message is not [{count: 5}]. *)
Lemma widget_scenario_is_no_patch :
  ∃ state',
    comms_run defaultCommState (widget_scenario 0 "widget") = Returns state' ∧
    models_of state' !! KStr "c1" ≠ Some (fromJS (JObj {[ "count" := JNum 5 ]})).
Proof.
  eexists. split; [vm_compute; reflexivity|].
  intros Heq.
  apply (f_equal (λ model, model ≫= λ c, coll_get c (KStr "count"))) in Heq.
  vm_compute in Heq. discriminate.
Qed.

(** C8, amended: from the initial state, RegisterCommTarget("widget", h),
    CommOpen(c1, target_name "widget", target_module "reducers",
    {count: 0}) and CommMessage(c1, {path: ["count"], value: 5}) end with
    [models["c1"]] the copy of the whole payload,
    [{path: ["count"], value: 5}]: the record stored for c1 has the name
    "widget", not "setIn", so the message replaces the model.  The same
    sequence with the comm opened against the name "setIn" ends with
    [{count: 5}]. *)
Theorem widget_scenario_replaces_model handler :
  (∃ state',
     comms_run defaultCommState (widget_scenario handler "widget")
       = Returns state' ∧
     models_of state' !! KStr "c1"
       = Some (fromJS (JObj {[ "path" := JArr [JStr "count"];
                               "value" := JNum 5 ]}))) ∧
  (∃ state',
     comms_run defaultCommState (widget_scenario handler "setIn")
       = Returns state' ∧
     models_of state' !! KStr "c1"
       = Some (fromJS (JObj {[ "count" := JNum 5 ]}))).
Proof.
  split; eexists; (split; [vm_compute; reflexivity|]); vm_compute; reflexivity.
Qed.

(** * More of the reducer and of its neighbours *)

(** ** A message seen from its own comm *)

Lemma concat_path_keys prefix path :
  concat_path prefix path =
    match path_keys path with
    | Some keys => Returns (prefix ++ keys)
    | None => OutOfModel
    end.
Proof. reflexivity. Qed.

(** On a comm state, [processCommMessage] reads the info record and the
    model of its comm, and writes the model of its comm. *)
Lemma processCommMessage_local state data comm_id :
  wf_state state →
  processCommMessage state data comm_id =
    x ← message_entry (info_of state !! KStr comm_id)
          (models_of state !! KStr comm_id) data;
    Returns (with_sub "models" (<[KStr comm_id := x]> (models_of state)) state).
Proof.
  intros Hwf. unfold processCommMessage, message_entry.
  rewrite (getIn_info _ _ Hwf). simpl.
  destruct (setIn_convention _) as [[]| |]; simpl; [|by destruct (wf_state_inv _ Hwf) as (m & -> & _ & _ & Hm & _); rewrite (setIn_entry _ _ _ _ _ Hm)|done..].
  destruct (js_field data "path") as [path| |]; simpl; [|done..].
  destruct (js_field data "value") as [value| |]; simpl; [|done..].
  rewrite concat_path_keys.
  destruct (path_keys path) as [keys|]; simpl; [|done].
  destruct (wf_state_inv _ Hwf) as (m & -> & _ & _ & Hm & _).
  by rewrite (setIn_field _ _ _ _ _ _ Hm).
Qed.













(** ** What the reachable states look like *)

(** X3: the shape of every state reached from the initial one.  The three
    sub-maps are [Map]s keyed by strings; every entry of [targets] is a
    handler, every entry of [info] is a record of exactly the two strings
    [target_module] and [target_name]. *)
Theorem reachable_state_shape state :
  reachable state →
  wf_state state ∧
  (∀ k v, targets_of state !! k = Some v →
     ∃ name handler, k = KStr name ∧ v = IFunc handler) ∧
  (∀ k v, info_of state !! k = Some v →
     ∃ comm_id target_module target_name,
       k = KStr comm_id ∧ v = info_record target_module target_name) ∧
  (∀ k, is_Some (models_of state !! k) → ∃ comm_id, k = KStr comm_id).
Proof.
  induction 1 as [|state action state' Hreach (Hwf & Ht & Hi & Hm) Hstep].
  - split; [apply wf_state_default|].
    change (targets_of defaultCommState) with (∅ : gmap key imm).
    change (info_of defaultCommState) with (∅ : gmap key imm).
    change (models_of defaultCommState) with (∅ : gmap key imm).
    split_and!; intros k; [intros v..|]; rewrite lookup_empty; try done.
  - destruct (comms_returns _ _ _ Hwf Hstep) as [Hwf' Hshape].
    split; [done|].
    destruct action as [name handler|comm_id tn tm data|comm_id data|type].
    + destruct Hshape as (-> & -> & ->). split_and!; [|done..].
      intros k v [[<- <-]|[_ Hk]]%lookup_insert_Some; eauto.
    + destruct Hshape as (-> & -> & ->). split_and!; [done| |].
      * intros k v [[<- <-]|[_ Hk]]%lookup_insert_Some; eauto.
      * intros k [v [[<- <-]|[_ Hk]]%lookup_insert_Some]; eauto.
    + destruct Hshape as (-> & -> & x & ->). split_and!; [done..|].
      intros k [v [[<- <-]|[_ Hk]]%lookup_insert_Some]; eauto.
    + by subst.
Qed.

Lemma reachable_state_shape_witness :
  reachable (setIn_state (Some (fromJS nested_data))) ∧
  ∀ k v, info_of (setIn_state (Some (fromJS nested_data))) !! k = Some v →
    ∃ comm_id target_module target_name,
      k = KStr comm_id ∧ v = info_record target_module target_name.
Proof.
  assert (reachable (setIn_state (Some (fromJS nested_data)))) as Hreach.
  { apply (reachable_step defaultCommState
             (CommOpenAction "c" "setIn" "reducers" nested_data));
      [apply reachable_init | vm_compute; reflexivity]. }
  split; [exact Hreach|].
  exact (proj1 (proj2 (proj2 (reachable_state_shape _ Hreach)))).
Defined.

(** X4: an open or a message for one comm leaves the info record and the
    model of every other comm as they were. *)
Theorem other_comms_untouched state action comm_id state' other :
  wf_state state →
  addressed action = Some (Comm comm_id) →
  comms state action = Returns state' →
  other ≠ KStr comm_id →
  info_of state' !! other = info_of state !! other ∧
  models_of state' !! other = models_of state !! other.
Proof.
  intros Hwf Haddr Hstep Hother.
  destruct (comms_returns _ _ _ Hwf Hstep) as [_ Hshape].
  destruct action as [| c tn tm data | c data |]; simplify_eq/=.
  - destruct Hshape as (_ & -> & ->). by rewrite !lookup_insert_ne.
  - destruct Hshape as (_ & -> & x & ->). by rewrite lookup_insert_ne.
Qed.

Lemma other_comms_untouched_witness :
  ∃ state',
    comms (setIn_state (Some (fromJS nested_data)))
      (CommOpenAction "d" "widget" "custom" JNull) = Returns state' ∧
    info_of state' !! KStr "c"
      = info_of (setIn_state (Some (fromJS nested_data))) !! KStr "c" ∧
    models_of state' !! KStr "c"
      = models_of (setIn_state (Some (fromJS nested_data))) !! KStr "c".
Proof.
  eexists. split; [vm_compute; reflexivity|].
  apply (other_comms_untouched (setIn_state (Some (fromJS nested_data)))
           (CommOpenAction "d" "widget" "custom" JNull) "d").
  - apply setIn_state_wf.
  - reflexivity.
  - vm_compute. reflexivity.
  - discriminate.
Defined.

Lemma info_record_matches target_module target_name r :
  info_record target_module target_name = IMap r →
  (r !! KStr "target_module" = Some (IStr "reducers") ∧
   r !! KStr "target_name" = Some (IStr "setIn")) ↔
  target_module = "reducers" ∧ target_name = "setIn".
Proof.
  intros [= <-]. rewrite lookup_insert_eq, lookup_insert_ne by done.
  rewrite lookup_singleton_eq. split; intros [? ?]; by simplify_eq.
Qed.

(** X5: the latest open decides the convention of a comm.  After a
    CommOpen the comm is under the [reducers]/[setIn] convention exactly
    when the open carried those two strings, whatever record was stored
    before; the other comms keep theirs. *)
Theorem open_decides_convention
    state comm_id target_name target_module data state' :
  wf_state state →
  comms state (CommOpenAction comm_id target_name target_module data)
    = Returns state' →
  (convention_matches state' comm_id ↔
   target_module = "reducers" ∧ target_name = "setIn") ∧
  (∀ other, other ≠ comm_id →
     convention_matches state' other ↔ convention_matches state other).
Proof.
  intros Hwf Hstep.
  destruct (comms_returns _ _ _ Hwf Hstep) as (_ & _ & Hinfo & _).
  unfold convention_matches. rewrite Hinfo. split.
  - rewrite lookup_insert_eq. split.
    + intros (r & Hr & Hfields). injection Hr as Hr.
      by apply (info_record_matches target_module target_name r);
        [unfold info_record; f_equal|].
    + intros Hfields. eexists. split; [done|].
      by apply (info_record_matches target_module target_name).
  - intros other Hother. rewrite lookup_insert_ne; [done|congruence].
Qed.

Lemma open_decides_convention_witness :
  ∃ state',
    comms (setIn_state None) (CommOpenAction "c" "widget" "reducers" JNull)
      = Returns state' ∧
    ¬ convention_matches state' "c".
Proof.
  destruct (processCommOpen_returns (setIn_state None) "c" "widget" "reducers"
              JNull (setIn_state_wf None)) as [state' Hstep].
  exists state'. split; [exact Hstep|]. intros Hyes.
  destruct (proj1 (proj1 (open_decides_convention _ _ _ _ _ _
                            (setIn_state_wf None) Hstep)) Hyes) as [_ Hname].
  discriminate.
Defined.

(** ** How messages compose *)












(** ** Actions on different entries *)

Lemma wf_state_build state :
  wf_state state →
  ∃ m, state = build m (targets_of state) (info_of state) (models_of state).
Proof.
  intros (m & -> & Ht & Hi & Hm & _)%wf_state_inv. exists m. unfold build.
  f_equal. by rewrite (insert_id _ _ _ Hm), (insert_id _ _ _ Hi), (insert_id _ _ _ Ht).
Qed.

Lemma build_wf m t i mo :
  (∀ k v, i !! k = Some v → ∃ r, v = IMap r) → wf_state (build m t i mo).
Proof.
  intros Hrec. eexists _, t, i, mo. unfold build.
  rewrite lookup_insert_eq, lookup_insert_ne, lookup_insert_eq by done.
  rewrite !lookup_insert_ne, lookup_insert_eq by done. by split_and!.
Qed.

Lemma build_submaps m t i mo :
  targets_of (build m t i mo) = t ∧
  info_of (build m t i mo) = i ∧
  models_of (build m t i mo) = mo.
Proof.
  unfold targets_of, info_of, models_of, submap, build.
  rewrite lookup_insert_eq, lookup_insert_ne, lookup_insert_eq by done.
  by rewrite !lookup_insert_ne, lookup_insert_eq by done.
Qed.

Lemma with_sub_build m t i mo sub :
  with_sub "targets" sub (build m t i mo) = build m sub i mo ∧
  with_sub "info" sub (build m t i mo) = build m t sub mo ∧
  with_sub "models" sub (build m t i mo) = build m t i sub.
Proof.
  unfold with_sub, build. split_and!; f_equal.
  - by rewrite insert_insert_eq.
  - rewrite (insert_insert_ne _ (KStr "info") (KStr "targets")) by done.
    by rewrite insert_insert_eq.
  - rewrite (insert_insert_ne _ (KStr "models") (KStr "targets")) by done.
    rewrite (insert_insert_ne _ (KStr "models") (KStr "info")) by done.
    by rewrite insert_insert_eq.
Qed.

(** The transitions on a state given by its three sub-maps. *)
Lemma comms_build m t i mo action :
  (∀ k v, i !! k = Some v → ∃ r, v = IMap r) →
  comms (build m t i mo) action =
    match action with
    | RegisterCommTargetAction name handler =>
        Returns (build m (<[KStr name := IFunc handler]> t) i mo)
    | CommOpenAction comm_id target_name target_module data =>
        Returns (build m t
                   (<[KStr comm_id := info_record target_module target_name]> i)
                   (<[KStr comm_id := fromJS data]> mo))
    | CommMessageAction comm_id data =>
        x ← message_entry (i !! KStr comm_id) (mo !! KStr comm_id) data;
        Returns (build m t i (<[KStr comm_id := x]> mo))
    | OtherAction type =>
        if recognized type then OutOfModel else Returns (build m t i mo)
    end.
Proof.
  intros Hrec. pose proof (build_wf m t i mo Hrec) as Hwf.
  destruct (build_submaps m t i mo) as (Ht & Hi & Hm).
  rewrite (wf_state_not_undefined _ _ Hwf).
  destruct action as [name handler|comm_id tn tm data|comm_id data|type].
  - rewrite (registerCommTarget_wf _ _ _ Hwf), Ht.
    by destruct (with_sub_build m t i mo (<[KStr name := IFunc handler]> t))
      as (-> & _).
  - rewrite (processCommOpen_wf _ _ _ _ _ Hwf), Hi, Hm.
    destruct (with_sub_build m t i mo
                (<[KStr comm_id := info_record tm tn]> i)) as (_ & -> & _).
    by destruct (with_sub_build m t
                   (<[KStr comm_id := info_record tm tn]> i) mo
                   (<[KStr comm_id := fromJS data]> mo)) as (_ & _ & ->).
  - rewrite (processCommMessage_local _ _ _ Hwf), Hi, Hm.
    destruct (message_entry _ _ data) as [x| |];
      unfold mbind, outcome_bind; [|done..].
    by destruct (with_sub_build m t i mo (<[KStr comm_id := x]> mo))
      as (_ & _ & ->).
  - done.
Qed.

Lemma info_records_insert (i : gmap key imm) k target_module target_name :
  (∀ k v, i !! k = Some v → ∃ r, v = IMap r) →
  ∀ k' v, <[k := info_record target_module target_name]> i !! k' = Some v →
    ∃ r, v = IMap r.
Proof.
  intros Hrec k' v [[_ <-]|[_ Hk]]%lookup_insert_Some; [by eexists|eauto].
Qed.

Lemma bind_returns {A B} (f : A → outcome B) (a : A) : (Returns a ≫= f) = f a.
Proof. reflexivity. Qed.

Lemma comms_run_two state a1 a2 :
  comms_run state [a1; a2] = state1 ← comms state a1; comms state1 a2.
Proof. reflexivity. Qed.

(** X9: actions on different entries commute.  Two actions that write
    different entries (two names of the registry, two comms, or a name and
    a comm): when they return in one order they return the same state in
    the other order. *)
Theorem independent_actions_commute state a1 a2 final :
  wf_state state →
  independent a1 a2 →
  comms_run state [a1; a2] = Returns final →
  comms_run state [a2; a1] = Returns final.
Proof.
  intros Hwf Hind.
  destruct (wf_state_inv _ Hwf) as (_ & _ & _ & _ & _ & Hrec).
  destruct (wf_state_build _ Hwf) as [m ->].
  revert Hrec Hind.
  generalize (targets_of state) (info_of state) (models_of state).
  clear state Hwf. intros t i mo Hrec Hind.
  rewrite !comms_run_two. unfold independent in Hind.
  destruct a1 as [n1 h1|c1 tn1 tm1 d1|c1 d1|ty1],
           a2 as [n2 h2|c2 tn2 tm2 d2|c2 d2|ty2];
    simpl in Hind; try done;
    try assert (KStr c1 ≠ KStr c2) as Hc by congruence;
    try assert (KStr c2 ≠ KStr c1) as Hc' by congruence;
    try assert (KStr n1 ≠ KStr n2) as Hn by congruence;
    repeat first
      [ rewrite bind_returns
      | rewrite (comms_build _ _ _ _ _ Hrec)
      | rewrite (comms_build _ _ _ _ _ (info_records_insert _ _ _ _ Hrec))
      | rewrite lookup_insert_ne by done
      | match goal with
        | |- context [message_entry ?a ?b ?c] =>
            destruct (message_entry a b c) as [?| |] eqn:?
        end ];
    try done.
  all: intros [= <-].
  all: rewrite ?(insert_insert_ne _ (KStr c1) (KStr c2)),
               ?(insert_insert_ne _ (KStr n1) (KStr n2)) by done.
  all: congruence.
Qed.

Lemma independent_actions_commute_witness :
  ∃ final,
    comms_run defaultCommState
      [ CommOpenAction "c" "setIn" "reducers" nested_data;
        CommMessageAction "d" scalar_data ] = Returns final ∧
    comms_run defaultCommState
      [ CommMessageAction "d" scalar_data;
        CommOpenAction "c" "setIn" "reducers" nested_data ] = Returns final.
Proof.
  eexists. split; [vm_compute; reflexivity|].
  apply (independent_actions_commute defaultCommState
           (CommOpenAction "c" "setIn" "reducers" nested_data)
           (CommMessageAction "d" scalar_data)).
  - apply wf_state_default.
  - simpl. discriminate.
  - vm_compute. reflexivity.
Defined.




(** ** The editor chooser *)

Section editor_facts.
Import Editor.

Lemma visit_chosen editorType e children :
  foldl (visit editorType) (Some e) children = Some e.
Proof.
  induction children as [|c children IH]; simpl; [done|].
  replace (visit editorType (Some e) c) with (Some e); [done|].
  unfold visit. destruct (child_falsy c); [done|]. by destruct c.
Qed.

Lemma js_truthy_is_string v s :
  js_truthy v && js_is_string v s = js_is_string v s && negb (String.eqb s "").
Proof.
  destruct v; simpl; try done; try by destruct b.
  - by destruct (n =? 0).
  - destruct (String.eqb s0 s) eqn:Heq.
    + apply String.eqb_eq in Heq as ->. by rewrite andb_true_r.
    + by rewrite andb_false_r.
Qed.

Lemma visit_none editorType c :
  visit editorType None c = candidate editorType c.
Proof.
  unfold visit, candidate, wanted.
  destruct c as [|s|n| |e]; simpl; try done.
  - by destruct (String.eqb s "").
  - by destruct (n =? 0).
  - rewrite <- js_truthy_is_string.
    by destruct (js_truthy _), (js_is_string _ _).
Qed.

(** The loop of [render] finds the first child that is a candidate. *)
Lemma choose_first_candidate editorType children :
  foldl (visit editorType) None children
    = head (omap (candidate editorType) children).
Proof.
  induction children as [|c children IH]; simpl; [done|].
  rewrite visit_none. destruct (candidate editorType c) as [e|]; simpl.
  - apply visit_chosen.
  - apply IH.
Qed.

Lemma head_omap_Some {A B} (f : A → option B) l b :
  head (omap f l) = Some b ↔
  ∃ l1 a l2, l = l1 ++ a :: l2 ∧ f a = Some b ∧ Forall (λ x, f x = None) l1.
Proof.
  induction l as [|a l IH]; simpl.
  - split; [done|]. intros (l1 & a & l2 & Hl & _). by destruct l1.
  - destruct (f a) as [b'|] eqn:Hfa; simpl.
    + split.
      * intros [= ->]. exists [], a, l. by split_and!.
      * intros (l1 & a' & l2 & Hl & Hfa' & Hnone).
        destruct l1 as [|x l1]; injection Hl as -> Hl; [congruence|].
        apply Forall_cons in Hnone as [Hx _]. congruence.
    + rewrite IH. split.
      * intros (l1 & a' & l2 & -> & Hfa' & Hnone).
        exists (a :: l1), a', l2. split_and!; [done..|]. by constructor.
      * intros (l1 & a' & l2 & Hl & Hfa' & Hnone).
        destruct l1 as [|x l1]; injection Hl as -> Hl; [congruence|].
        apply Forall_cons in Hnone as [_ Hnone]. by exists l1, a', l2.
Qed.

Lemma head_omap_None {A B} (f : A → option B) l :
  head (omap f l) = None ↔ Forall (λ x, f x = None) l.
Proof.
  induction l as [|a l IH]; simpl; [by split|].
  destruct (f a) as [b|] eqn:Hfa; simpl.
  - split; [done|]. intros [? _]%Forall_cons. congruence.
  - rewrite IH. split; [by constructor|]. by intros [_ ?]%Forall_cons.
Qed.

(** X12: [render] clones the first child of the wanted editor type.  It
    returns [cloneElement(e, config)] exactly when [e] is an element child
    whose [editorType] prop is the editor's [editorType], not empty, and
    no child before [e] is such an element; [config] is the editor's props
    with [className] set to "nteract-cell-editor".  Children of another
    type before [e] do not stop the search, and children after [e] are
    not looked at. *)
Theorem render_clones_first_match
    editorType this_props children e config config_children :
  render editorType this_props children
    = CloneElement e config config_children ↔
  config = <["className" := JStr "nteract-cell-editor"]> this_props ∧
  config_children = children ∧
  ∃ before after,
    children = before ++ ChildElement e :: after ∧
    wanted editorType e = true ∧
    Forall (λ c, candidate editorType c = None) before.
Proof.
  unfold render. rewrite choose_first_candidate.
  destruct (head (omap (candidate editorType) children)) as [e'|] eqn:Hhead.
  - apply head_omap_Some in Hhead as (before & c & after & -> & Hc & Hnone).
    destruct c as [| | | |e'']; simpl in Hc; try done.
    destruct (wanted editorType e'') eqn:Hwanted; [|done].
    injection Hc as ->. split.
    + intros [= <- <- <-]. split_and!; [done..|]. by exists before, after.
    + intros (-> & -> & before' & after' & Heq & Hwanted' & Hnone').
      f_equal.
      assert (head (omap (candidate editorType)
                      (before ++ ChildElement e' :: after)) = Some e) as Hhead.
      { rewrite Heq. apply head_omap_Some.
        exists before', (ChildElement e), after'. simpl.
        by rewrite Hwanted'. }
      assert (head (omap (candidate editorType)
                      (before ++ ChildElement e' :: after)) = Some e') as Hhead'.
      { apply head_omap_Some.
        exists before, (ChildElement e'), after. simpl.
        by rewrite Hwanted. }
      congruence.
  - split; [done|].
    intros (_ & _ & before & after & -> & Hwanted & _).
    apply head_omap_None in Hhead.
    apply Forall_app in Hhead as [_ [Hc _]%Forall_cons].
    simpl in Hc. by rewrite Hwanted in Hc.
Qed.

(** X13: [render] returns [null] exactly when no child is an element of the
    wanted type; in particular always when the editor's [editorType] is
    the empty string, whatever the children are. *)
Theorem render_null_iff editorType this_props children :
  (render editorType this_props children = RenderNull ↔
   ∀ e, ChildElement e ∈ children → wanted editorType e = false) ∧
  render "" this_props children = RenderNull.
Proof.
  assert (∀ t, render t this_props children = RenderNull ↔
    ∀ e, ChildElement e ∈ children → wanted t e = false) as Hiff.
  { intros t. unfold render. rewrite choose_first_candidate.
    destruct (head (omap (candidate t) children)) as [e'|] eqn:Hhead.
    - split; [done|]. intros Hall.
      apply head_omap_Some in Hhead as (before & c & after & -> & Hc & _).
      destruct c as [| | | |e'']; simpl in Hc; try done.
      rewrite Hall in Hc; [done|]. apply elem_of_app. right. left.
    - split; [|done]. intros _ e He.
      apply head_omap_None in Hhead. rewrite Forall_forall in Hhead.
      specialize (Hhead _ He). simpl in Hhead.
      by destruct (wanted t e). }
  split; [apply Hiff|]. apply Hiff. intros e _. unfold wanted.
  by rewrite andb_false_r.
Qed.

Example render_example :
  render "codemirror" ∅ example_children
    = CloneElement (codemirror_editor 2)
        {[ "className" := JStr "nteract-cell-editor" ]} example_children.
Proof. vm_compute. reflexivity. Qed.
End editor_facts.

(** ** The error handler of the gist publisher *)

Section gist_facts.
Import Gist.

Lemma string_app_snoc piece c s : (piece +:+ String c "") +:+ s = piece +:+ String c s.
Proof.
  induction piece as [|a piece IH]; [done|].
  change (String a ((piece +:+ String c "") +:+ s) = String a (piece +:+ String c s)).
  by rewrite IH.
Qed.

Lemma string_app_nil_r s : s +:+ "" = s.
Proof.
  induction s as [|a s IH]; [done|].
  change (String a (s +:+ "") = String a s). by rewrite IH.
Qed.

Lemma string_app_cons a s t : String a s +:+ t = String a (s +:+ t).
Proof. reflexivity. Qed.

Lemma string_app_nil_l t : "" +:+ t = t.
Proof. reflexivity. Qed.

Lemma split_go_skip sep t : ∀ piece rest,
  split_go sep (String.length t) piece (t +:+ rest) = split_go sep 0 piece rest.
Proof.
  induction t as [|a t IH]; intros piece rest; [by destruct rest|].
  rewrite string_app_cons. cbn. apply IH.
Qed.

Section two_characters.
Variables x y : ascii.
Hypothesis Hxy : x ≠ y.

(** No occurrence of the separator starts inside a piece that does not
    include it, also when the separator follows the piece. *)
Lemma starts_with_sep_app a p rest :
  starts_with (String x (String y "")) (String a p) = false →
  starts_with (String x (String y ""))
    (String a p +:+ String x (String y "") +:+ rest) = false.
Proof.
  rewrite string_app_cons. cbn. destruct (Ascii.eqb_spec x a) as [<-|]; [|done].
  cbn. destruct p as [|b p].
  - intros _. rewrite string_app_nil_l, string_app_cons.
    destruct (Ascii.eqb_spec y x) as [->|]; [done|]. done.
  - by rewrite string_app_cons.
Qed.

Lemma split_go_piece p : ∀ piece rest,
  includes p (String x (String y "")) = false →
  split_go (String x (String y "")) 0 piece
    (p +:+ String x (String y "") +:+ rest)
    = (piece +:+ p) :: split_go (String x (String y "")) 0 "" rest.
Proof.
  induction p as [|a p IH]; intros piece rest Hnone.
  - rewrite string_app_nil_l, !string_app_cons, string_app_nil_l, string_app_nil_r. cbn.
    by rewrite !Ascii.eqb_refl.
  - cbn [includes] in Hnone. apply orb_false_elim in Hnone as [Hstart Hnone].
    pose proof (starts_with_sep_app a p rest Hstart) as Hs.
    rewrite string_app_cons in Hs |- *. cbn [split_go]. rewrite Hs.
    rewrite (IH _ _ Hnone). by rewrite string_app_snoc.
Qed.

Lemma split_go_last p : ∀ piece,
  includes p (String x (String y "")) = false →
  split_go (String x (String y "")) 0 piece p = [piece +:+ p].
Proof.
  induction p as [|a p IH]; intros piece Hnone.
  - cbn. by rewrite string_app_nil_r.
  - cbn [includes] in Hnone. apply orb_false_elim in Hnone as [Hstart Hnone].
    cbn [split_go]. rewrite Hstart.
    rewrite (IH _ Hnone). by rewrite string_app_snoc.
Qed.
End two_characters.

Lemma split_header_line kv :
  plain_header kv → split (header_line kv) ": " = [kv.1; kv.2].
Proof.
  intros (_ & Hname & Hvalue & _). unfold split, header_line.
  rewrite (split_go_piece ":" " ") by done.
  rewrite (split_go_last ":" " ") by done. done.
Qed.

Lemma split_header_block pairs :
  Forall plain_header pairs →
  split (header_block pairs) CRLF = (header_line <$> pairs) ++ [""].
Proof.
  unfold split. induction 1 as [|kv pairs (Hline & _) _ IH]; [done|].
  cbn [header_block fmap list_fmap app]. unfold CRLF in *.
  rewrite (split_go_piece "013" "010") by done. by rewrite IH.
Qed.

Lemma parse_header_lines pairs : ∀ acc,
  Forall plain_header pairs →
  foldl (λ acc current,
           let parts := split current ": " in
           assign acc (parts !! 0%nat) (parts !! 1%nat))
        acc (header_line <$> pairs)
    = foldl (λ acc kv, <[kv.1 := Some kv.2]> acc) acc pairs.
Proof.
  induction pairs as [|kv pairs IH]; intros acc Hplain; [done|].
  apply Forall_cons in Hplain as [Hkv Hplain]. cbn [fmap list_fmap foldl].
  rewrite <- (IH _ Hplain). f_equal.
  rewrite (split_header_line _ Hkv). unfold assign. simpl.
  destruct Hkv as (_ & _ & _ & Hproto).
  by destruct (String.eqb_spec kv.1 "__proto__").
Qed.

(** The object built from a block of plain headers. *)
Lemma parse_header_block pairs :
  Forall plain_header pairs →
  parse_headers (header_block pairs) = <["" := None]> (last_values pairs).
Proof.
  intros Hplain. unfold parse_headers, last_values.
  rewrite (split_header_block _ Hplain), foldl_app.
  rewrite (parse_header_lines _ _ Hplain). done.
Qed.

Lemma example_headers_plain : Forall plain_header example_headers.
Proof. repeat constructor; done. Qed.

Lemma last_values_lookup pairs name :
  last_values pairs !! name
    = (λ kv, Some kv.2) <$> last (filter (λ kv, kv.1 = name) pairs).
Proof.
  unfold last_values.
  assert (∀ acc : gmap string (option string),
    foldl (λ acc kv, <[kv.1 := Some kv.2]> acc) acc pairs !! name
      = match last (filter (λ kv, kv.1 = name) pairs) with
        | Some kv => Some (Some kv.2)
        | None => acc !! name
        end) as Hgen.
  { induction pairs as [|kv pairs IH]; intros acc; [done|].
    cbn [foldl]. rewrite IH.
    destruct (decide (kv.1 = name)) as [Heq|Hne].
    - rewrite filter_cons_True by done. rewrite last_cons.
      destruct (last (filter _ pairs)); [done|].
      by rewrite <- Heq, lookup_insert_eq.
    - rewrite filter_cons_False by done.
      destruct (last (filter _ pairs)); [done|]. by rewrite lookup_insert_ne. }
  rewrite Hgen. by destruct (last _).
Qed.

(** X14: the header block read back.  For a block of lines [name: value],
    each ended by CRLF, with no separator inside a name or a value and no
    name "__proto__", the object built by the handler holds under every
    name the last value given for it and nothing under a name that does
    not occur; only the empty name is special: it holds [undefined], from
    the piece after the last CRLF. *)
Theorem parse_headers_block pairs name :
  Forall plain_header pairs →
  parse_headers (header_block pairs) !! name =
    if String.eqb name "" then Some None
    else (λ kv, Some kv.2) <$> last (filter (λ kv, kv.1 = name) pairs).
Proof.
  intros Hplain. rewrite (parse_header_block _ Hplain).
  destruct (String.eqb_spec name "") as [->|Hname].
  - by rewrite lookup_insert_eq.
  - rewrite lookup_insert_ne by done. apply last_values_lookup.
Qed.

Lemma parse_headers_block_witness :
  Forall plain_header example_headers ∧
  parse_headers (header_block example_headers) !! "X-OAuth-Scopes"
    = Some (Some "repo, user").
Proof.
  split; [apply example_headers_plain|].
  rewrite (parse_headers_block example_headers "X-OAuth-Scopes"
             example_headers_plain).
  vm_compute. reflexivity.
Defined.

Lemma filter_absent (pairs : list (string * string)) name :
  Forall (λ kv, kv.1 ≠ name) pairs → filter (λ kv, kv.1 = name) pairs = [].
Proof.
  induction 1 as [|kv pairs Hkv _ IH]; [done|].
  rewrite filter_cons_False by done. apply IH.
Qed.

(** X15: what the handler reports for a header block.  For a block of
    plain header lines without a header named "hasOwnProperty": when
    the last header named exactly "X-OAuth-Scopes" has a value that does
    not include "gist", the handler adds the "Bad GitHub Token"
    notification and emits one error about the token; otherwise it emits
    the error of the request, with the "Gist publishing failed"
    notification exactly when the status is above 500. *)
Theorem on_error_block pairs status :
  Forall plain_header pairs →
  Forall (λ kv, kv.1 ≠ "hasOwnProperty") pairs →
  on_error (header_block pairs) status =
    Returns
      match last (filter (λ kv, kv.1 = "X-OAuth-Scopes") pairs) with
      | Some kv =>
          if includes kv.2 "gist"
          then (if 500 <? status then [publishing_failed] else [],
                [CoreError RequestError])
          else ([bad_token],
                [CoreError (NewError "Current token doesn't allow for gists")])
      | None =>
          (if 500 <? status then [publishing_failed] else [],
           [CoreError RequestError])
      end.
Proof.
  intros Hplain Hnames. unfold on_error.
  rewrite (parse_header_block _ Hplain).
  unfold hasOwnProperty, header_includes.
  rewrite !lookup_insert_ne by done. rewrite !last_values_lookup.
  rewrite (filter_absent _ _ Hnames). simpl.
  destruct (last (filter _ pairs)) as [kv|]; simpl; [|done].
  by destruct (includes kv.2 "gist").
Qed.

Lemma on_error_block_witness :
  on_error (header_block example_headers) 403 =
    Returns ([bad_token],
             [CoreError (NewError "Current token doesn't allow for gists")]).
Proof.
  rewrite (on_error_block example_headers 403 example_headers_plain).
  - vm_compute. reflexivity.
  - repeat constructor; done.
Defined.

(** X16: a response header named "hasOwnProperty" makes the handler throw.
    The object built from the block then has an own property of that
    name, a string, which hides the method the handler calls: the call is
    a [TypeError], no notification is added and no action is emitted. *)
Theorem on_error_shadowed_method pairs status :
  Forall plain_header pairs →
  Exists (λ kv, kv.1 = "hasOwnProperty") pairs →
  on_error (header_block pairs) status = Throws TypeError.
Proof.
  intros Hplain Hshadow. unfold on_error.
  rewrite (parse_header_block _ Hplain). unfold hasOwnProperty.
  rewrite lookup_insert_ne by done. rewrite last_values_lookup.
  assert (is_Some (last (filter (λ kv : string * string,
                                   kv.1 = "hasOwnProperty") pairs))) as [kv ->].
  { apply Exists_exists in Hshadow as (kv & Hin & Hkv).
    assert (kv ∈ filter (λ kv : string * string, kv.1 = "hasOwnProperty") pairs)
      as Hfiltered by by apply list_elem_of_filter.
    destruct (filter _ pairs) as [|kv' l] using rev_ind.
    - by apply elem_of_nil in Hfiltered.
    - rewrite last_snoc. by eexists. }
  done.
Qed.

Lemma on_error_shadowed_method_witness :
  on_error (header_block [("hasOwnProperty", "x")]) 500 = Throws TypeError.
Proof.
  apply (on_error_shadowed_method [("hasOwnProperty", "x")] 500).
  - repeat constructor; done.
  - left. reflexivity.
Defined.
End gist_facts.
